(** * REST server-side streaming: the [ResponseIterator] of
    [google/api_core/rest_streaming.py]

    The Python class scans the text of an HTTP response, one chunk at a
    time, for the objects of a top-level JSON array, queues the text of each
    completed object and hands the queued texts, decoded, to the caller.

    The embedding is shallow.  The mutable attributes of [self] are the fields
    of a record that every method receives and returns; an exception leaves the
    record as the method had left it at the point of the [raise].  Python's
    [str] is [string] (a character is an [ascii], read as the code point of the
    same number), Python's unbounded [int] is [Z], and a Python list used as a
    queue is a [list]. *)

From Stdlib Require Import ZArith NArith List String Ascii Bool Lia.
Import ListNotations.

Local Open Scope Z_scope.
Local Open Scope list_scope.

(** ** Characters and text *)

(** The double quote, written by its decimal code. *)
Definition dquote : ascii := "034"%char.

(** [chr s] is the one-character text holding [s]. *)
Definition chr (c : ascii) : string := String c EmptyString.

(** [quoted s] is [s] between two double quotes. *)
Definition quoted (s : string) : string :=
  String dquote (s ++ chr dquote)%string.

(** [string.whitespace]: space, tab, line feed, carriage return, vertical tab
    and form feed. *)
Definition string_whitespace : list ascii :=
  [" "%char; "009"%char; "010"%char; "013"%char; "011"%char; "012"%char].

Definition in_whitespace (c : ascii) : bool :=
  existsb (Ascii.eqb c) string_whitespace.

(** ** Exceptions *)

Inductive exn : Type :=
| ValueError (msg : string)
| IndexError
| StopIteration
| JSONDecodeError (msg : string)
| DecoderError (msg : string).

(** ** The objects *)

(** Modelled from the spec: the [requests.Response] behind the iterator and
    the content iterator [iter_content(decode_unicode=True)] made from it are
    not in the repository.  The spec's ChunkSource is "a pull operation
    returning the next text fragment or signaling end-of-stream; a close
    operation releasing underlying resources".  [pending] holds the fragments
    not pulled yet and [closed] records that the response has been closed.
    The contract does not say what a pull gives once the source is closed:
    [close] leaves the fragments where they are, and nothing that is stated
    below about a cancelled iterator involves a pull. *)
Record Response : Type := mkResponse {
  pending : list string;
  closed : bool
}.

Definition close (r : Response) : Response :=
  {| pending := pending r; closed := true |}.

Record ResponseIterator : Type := mkIterator {
  _response : Response;
  _ready_objs : list string;
  _obj : string;
  _level : Z;
  _in_string : bool
}.

(** [ResponseIterator.__init__] *)
Definition init (response : Response) : ResponseIterator :=
  {| _response := response;
     _ready_objs := [];
     _obj := EmptyString;
     _level := 0;
     _in_string := false |}.

Definition set_response (r : Response) (self : ResponseIterator) :=
  {| _response := r;
     _ready_objs := _ready_objs self;
     _obj := _obj self;
     _level := _level self;
     _in_string := _in_string self |}.

Definition set_ready_objs (q : list string) (self : ResponseIterator) :=
  {| _response := _response self;
     _ready_objs := q;
     _obj := _obj self;
     _level := _level self;
     _in_string := _in_string self |}.

Definition set_obj (o : string) (self : ResponseIterator) :=
  {| _response := _response self;
     _ready_objs := _ready_objs self;
     _obj := o;
     _level := _level self;
     _in_string := _in_string self |}.

Definition set_level (l : Z) (self : ResponseIterator) :=
  {| _response := _response self;
     _ready_objs := _ready_objs self;
     _obj := _obj self;
     _level := l;
     _in_string := _in_string self |}.

Definition set_in_string (b : bool) (self : ResponseIterator) :=
  {| _response := _response self;
     _ready_objs := _ready_objs self;
     _obj := _obj self;
     _level := _level self;
     _in_string := b |}.

(** ** Methods as state transformers that may raise *)

Definition M (A : Type) : Type :=
  ResponseIterator -> (exn + A) * ResponseIterator.

Definition ret {A} (a : A) : M A := fun self => (inr a, self).

Definition raise {A} (e : exn) : M A := fun self => (inl e, self).

Definition bind {A B} (m : M A) (k : A -> M B) : M B :=
  fun self =>
    match m self with
    | (inl e, self') => (inl e, self')
    | (inr a, self') => k a self'
    end.

Definition get : M ResponseIterator := fun self => (inr self, self).

Definition modify (f : ResponseIterator -> ResponseIterator) : M unit :=
  fun self => (inr tt, f self).

Declare Scope py_scope.
Delimit Scope py_scope with py.
Notation "x <- m ;; k" := (bind m (fun x => k))
  (at level 61, m at next level, right associativity) : py_scope.
Notation "m ;; k" := (bind m (fun _ => k))
  (at level 61, right associativity) : py_scope.

(** ** The boundary scanner *)

(** The body of the [for char in chunk] loop of [_process_chunk]. *)
Definition step (self : ResponseIterator) (char : ascii) : ResponseIterator :=
  if (char =? "{")%char then
    let self := if _level self =? 1 then set_obj EmptyString self else self in
    let self :=
      if negb (_in_string self) then set_level (_level self + 1) self
      else self in
    set_obj (_obj self ++ chr char) self
  else if (char =? dquote)%char then
    let self := set_in_string (negb (_in_string self)) self in
    set_obj (_obj self ++ chr char) self
  else if (char =? "}")%char then
    let self := set_obj (_obj self ++ chr char) self in
    let self :=
      if negb (_in_string self) then set_level (_level self - 1) self
      else self in
    if negb (_in_string self) && (_level self =? 1)
    then set_ready_objs (_ready_objs self ++ [_obj self]) self
    else self
  else if in_whitespace char then
    if _in_string self then set_obj (_obj self ++ chr char) self else self
  else if (char =? "[")%char then
    set_level (_level self + 1) self
  else if (char =? "]")%char then
    set_level (_level self - 1) self
  else
    set_obj (_obj self ++ chr char) self.

(** The whole loop: the characters of the chunk, first to last. *)
Fixpoint scan (chunk : string) (self : ResponseIterator) : ResponseIterator :=
  match chunk with
  | EmptyString => self
  | String char rest => scan rest (step self char)
  end.

Definition malformed (chunk : string) : exn :=
  ValueError
    ("Can only parse array of JSON objects, instead got " ++ chunk)%string.

(** [ResponseIterator._process_chunk].  At level 0 the chunk is indexed at 0
    before anything else is done: an empty chunk raises [IndexError] there. *)
Definition _process_chunk (chunk : string) : M unit :=
  (self <- get ;;
   (if _level self =? 0 then
      match chunk with
      | EmptyString => raise IndexError
      | String c _ =>
          if negb (c =? "[")%char then raise (malformed chunk) else ret tt
      end
    else ret tt) ;;
   modify (scan chunk))%py.

(** Feeding the scanner a sequence of chunks, as [__next__] does one pull at
    a time; the first exception ends the feed. *)
Fixpoint feed (chunks : list string) : M unit :=
  match chunks with
  | [] => ret tt
  | chunk :: rest => (_process_chunk chunk ;; feed rest)%py
  end.

(** ** Decoding a completed object *)

(** What [json.loads] returns for a string literal: a text of arbitrary code
    points (an escape [\uXXXX] may denote any of them). *)
Definition pystr : Type := list N.

Definition hexval (c : ascii) : option N :=
  let n := N_of_ascii c in
  if (48 <=? n)%N && (n <=? 57)%N then Some (n - 48)%N
  else if (65 <=? n)%N && (n <=? 70)%N then Some (n - 55)%N
  else if (97 <=? n)%N && (n <=? 102)%N then Some (n - 87)%N
  else None.

(** [json.decoder._decode_uXXXX] on the four characters after the [u]. *)
Definition _decode_uXXXX (h1 h2 h3 h4 : ascii) : option N :=
  match hexval h1, hexval h2, hexval h3, hexval h4 with
  | Some a, Some b, Some c, Some d => Some (((a * 16 + b) * 16 + c) * 16 + d)%N
  | _, _, _, _ => None
  end.

(** [json.decoder.BACKSLASH] *)
Definition BACKSLASH (esc : ascii) : option N :=
  if (esc =? dquote)%char then Some 34%N
  else if (esc =? "\")%char then Some 92%N
  else if (esc =? "/")%char then Some 47%N
  else if (esc =? "b")%char then Some 8%N
  else if (esc =? "f")%char then Some 12%N
  else if (esc =? "n")%char then Some 10%N
  else if (esc =? "r")%char then Some 13%N
  else if (esc =? "t")%char then Some 9%N
  else None.

Definition push (c : N) (r : exn + pystr * string) : exn + pystr * string :=
  match r with
  | inl e => inl e
  | inr (v, tail) => inr (c :: v, tail)
  end.

Definition unterminated : exn :=
  JSONDecodeError "Unterminated string starting at".

Definition invalid_uXXXX : exn := JSONDecodeError "Invalid \uXXXX escape".

(** The standard library's [json.decoder.py_scanstring] in strict mode, from
    the character after the opening quote: the decoded text and what follows
    the closing quote, or the [JSONDecodeError] (its message only). *)
Fixpoint py_scanstring (s : string) : exn + pystr * string :=
  match s with
  | EmptyString => inl unterminated
  | String c rest =>
      if (c =? dquote)%char then inr ([], rest)
      else if (c =? "\")%char then
        match rest with
        | EmptyString => inl unterminated
        | String esc rest1 =>
            if (esc =? "u")%char then
              match rest1 with
              | String h1 (String h2 (String h3 (String h4 rest2))) =>
                  match _decode_uXXXX h1 h2 h3 h4 with
                  | None => inl invalid_uXXXX
                  | Some uni =>
                      match rest2 with
                      | String b (String u rest3) =>
                          if (55296 <=? uni)%N && (uni <=? 56319)%N
                             && (b =? "\")%char && (u =? "u")%char
                          then
                            match rest3 with
                            | String l1 (String l2 (String l3 (String l4 rest4))) =>
                                match _decode_uXXXX l1 l2 l3 l4 with
                                | None => inl invalid_uXXXX
                                | Some uni2 =>
                                    if (56320 <=? uni2)%N && (uni2 <=? 57343)%N
                                    then
                                      push (65536 + N.lor (N.shiftl (uni - 55296) 10)
                                                          (uni2 - 56320))%N
                                           (py_scanstring rest4)
                                    else push uni (py_scanstring rest2)
                                end
                            | _ => inl invalid_uXXXX
                            end
                          else push uni (py_scanstring rest2)
                      | _ => push uni (py_scanstring rest2)
                      end
                  end
              | _ => inl invalid_uXXXX
              end
            else
              match BACKSLASH esc with
              | None => inl (JSONDecodeError "Invalid \escape")
              | Some ch => push ch (py_scanstring rest1)
              end
        end
      else if (N_of_ascii c <? 32)%N then
        inl (JSONDecodeError "Invalid control character at")
      else push (N_of_ascii c) (py_scanstring rest)
  end.

(** [json.decoder.WHITESPACE]: space, tab, line feed, carriage return. *)
Definition json_whitespace (c : ascii) : bool :=
  existsb (Ascii.eqb c) [" "%char; "009"%char; "010"%char; "013"%char].

Fixpoint all_json_whitespace (s : string) : bool :=
  match s with
  | EmptyString => true
  | String c rest => json_whitespace c && all_json_whitespace rest
  end.

(** [json.loads] on a document whose first character is the double quote,
    given as the text [body] after that quote: the document is one string
    literal, then white space up to its end. *)
Definition json_loads_quote (body : string) : exn + pystr :=
  match py_scanstring body with
  | inl e => inl e
  | inr (doc, tail) =>
      if all_json_whitespace tail then inr doc
      else inl (JSONDecodeError "Extra data")
  end.

(** The class given to [__init__] as [response_message_cls]: all the iterator
    asks of it is [from_json], which may raise. *)
Class MessageCls (Msg : Type) : Type := {
  from_json : pystr -> exn + Msg
}.

Section Iterator.

Context {Msg : Type} `{MessageCls Msg}.

(** [ResponseIterator._grab].  The queue loses its head before the text is
    decoded. *)
Definition _grab : M Msg :=
  fun self =>
    match _ready_objs self with
    | [] => (inl IndexError, self)
    | obj :: rest =>
        let self := set_ready_objs rest self in
        match json_loads_quote (obj ++ chr dquote) with
        | inl e => (inl e, self)
        | inr doc => (from_json doc, self)
        end
    end.

(** The [while not self._ready_objs] loop of [__next__], by recursion on the
    fragments the content iterator still holds. *)
Fixpoint pull_loop (itr : list string) : M unit :=
  fun self =>
    match _ready_objs self with
    | _ :: _ => (inr tt, self)
    | [] =>
        match itr with
        | [] => (inl StopIteration, self)
        | chunk :: itr' =>
            let self :=
              set_response
                {| pending := itr'; closed := closed (_response self) |}
                self in
            match _process_chunk chunk self with
            | (inl e, self') => (inl e, self')
            | (inr _, self') => pull_loop itr' self'
            end
        end
    end.

(** [ResponseIterator.__next__] *)
Definition __next__ : M Msg :=
  (self <- get ;;
   pull_loop (pending (_response self)) ;;
   _grab)%py.

End Iterator.

(** [ResponseIterator.__iter__] *)
Definition __iter__ : M ResponseIterator := get.

(** [ResponseIterator.cancel] *)
Definition cancel : M unit :=
  modify (fun self => set_response (close (_response self)) self).

(** A message class that keeps the decoded text as it is. *)
#[export] Instance TextMessage : MessageCls pystr := {
  from_json := fun doc => inr doc
}.

(** [calls n self]: what [n] successive calls of [__next__] return or raise,
    and the iterator after them. *)
Fixpoint calls {Msg : Type} `{MessageCls Msg} (n : nat)
  (self : ResponseIterator) : list (exn + Msg) * ResponseIterator :=
  match n with
  | O => ([], self)
  | S n' =>
      let (r, self') := __next__ self in
      let (rs, self'') := calls n' self' in
      (r :: rs, self'')
  end.

Definition source (chunks : list string) : Response :=
  {| pending := chunks; closed := false |}.

(** What [_grab] makes of a queued text: [json.loads] on the text between two
    double quotes, then the message class. *)
Definition decode {Msg : Type} `{MessageCls Msg} (obj : string) : exn + Msg :=
  match json_loads_quote (obj ++ chr dquote) with
  | inl e => inl e
  | inr doc => from_json doc
  end.

(** ** Vocabulary of the statements *)

(** The fragments of a stream, put end to end. *)
Fixpoint join (chunks : list string) : string :=
  match chunks with
  | [] => EmptyString
  | chunk :: rest => (chunk ++ join rest)%string
  end.

(** A text cut into fragments of one character. *)
Fixpoint chars (text : string) : list string :=
  match text with
  | EmptyString => []
  | String c rest => chr c :: chars rest
  end.

Definition nonempty (chunk : string) : bool :=
  match chunk with
  | EmptyString => false
  | String _ _ => true
  end.

(** [guarded text self]: every character of [text] that the scanner meets at
    level 0 is an opening bracket. *)
Fixpoint guarded (text : string) (self : ResponseIterator) : bool :=
  match text with
  | EmptyString => true
  | String c rest =>
      (negb (_level self =? 0) || (c =? "[")%char)
      && guarded rest (step self c)
  end.

(** [above n text self]: the level is at least [n] after each character of
    [text]. *)
Fixpoint above (n : Z) (text : string) (self : ResponseIterator) : bool :=
  match text with
  | EmptyString => true
  | String c rest => (n <=? _level (step self c)) && above n rest (step self c)
  end.

(** The queue entries one character, and a text, add. *)
Definition emit (self : ResponseIterator) (c : ascii) : list string :=
  if (c =? "}")%char && negb (_in_string self) && (_level self - 1 =? 1)
  then [(_obj self ++ chr c)%string]
  else [].

Fixpoint emits (text : string) (self : ResponseIterator) : list string :=
  match text with
  | EmptyString => []
  | String c rest => emit self c ++ emits rest (step self c)
  end.

(** *** Streams the scanner is made for

    The text inside the outer brackets, as a sequence of items: single
    characters (commas, colons, digits, letters, backslashes, white space),
    string literals, and brace-delimited groups of items.  A JSON array of
    objects is such a sequence whenever it has no array inside, and no
    bracket and no escaped quote inside its strings. *)
#[warnings="-register-all"]
Inductive item : Type :=
| Char (c : ascii)
| Str (content : string)
| Braces (body : list item).

(** The text of an item in the stream. *)
Fixpoint source_text (it : item) : string :=
  match it with
  | Char c => chr c
  | Str content => quoted content
  | Braces body => ("{" ++ join (map source_text body) ++ "}")%string
  end.

(** The same text without the white space that stands outside strings. *)
Fixpoint object_text (it : item) : string :=
  match it with
  | Char c => if in_whitespace c then EmptyString else chr c
  | Str content => quoted content
  | Braces body => ("{" ++ join (map object_text body) ++ "}")%string
  end.

Definition structural (c : ascii) : bool :=
  (c =? "{")%char || (c =? "}")%char || (c =? dquote)%char
  || (c =? "[")%char || (c =? "]")%char.

Fixpoint content_ok (content : string) : bool :=
  match content with
  | EmptyString => true
  | String c rest =>
      negb ((c =? dquote)%char || (c =? "[")%char || (c =? "]")%char)
      && content_ok rest
  end.

Fixpoint valid (it : item) : bool :=
  match it with
  | Char c => negb (structural c)
  | Str content => content_ok content
  | Braces body => forallb valid body
  end.

(** Between the outer brackets: groups, and single characters around them. *)
Definition valid_top (it : item) : bool :=
  match it with
  | Str _ => false
  | _ => valid it
  end.

Definition array_text (items : list item) : string :=
  ("[" ++ join (map source_text items) ++ "]")%string.

(** The elements of the array: its groups, first to last. *)
Fixpoint elements (items : list item) : list string :=
  match items with
  | [] => []
  | Braces body :: rest => object_text (Braces body) :: elements rest
  | _ :: rest => elements rest
  end.

(** The texts of the groups as they stand in the stream. *)
Fixpoint element_sources (items : list item) : list string :=
  match items with
  | [] => []
  | Braces body :: rest => source_text (Braces body) :: element_sources rest
  | _ :: rest => element_sources rest
  end.

(** No white space outside strings. *)
Fixpoint compact (it : item) : bool :=
  match it with
  | Char c => negb (in_whitespace c)
  | Str _ => true
  | Braces body => forallb compact body
  end.

(** *** Counting brackets and braces *)

(** A position of a text is inside a string when an odd number of double
    quotes stand before it. *)
Definition inside_string (l : list ascii) (i : nat) : bool :=
  Nat.odd (count_occ ascii_dec (firstn i l) dquote).

(** The positions at which the scanner raises the level, and those at which
    it lowers it. *)
Definition raises_at (l : list ascii) (i : nat) : bool :=
  match nth_error l i with
  | Some c =>
      (c =? "[")%char || ((c =? "{")%char && negb (inside_string l i))
  | None => false
  end.

Definition lowers_at (l : list ascii) (i : nat) : bool :=
  match nth_error l i with
  | Some c =>
      (c =? "]")%char || ((c =? "}")%char && negb (inside_string l i))
  | None => false
  end.

(** The opening, and the closing, brackets and braces outside strings. *)
Definition opener_at (l : list ascii) (i : nat) : bool :=
  match nth_error l i with
  | Some c =>
      ((c =? "[")%char || (c =? "{")%char) && negb (inside_string l i)
  | None => false
  end.

Definition closer_at (l : list ascii) (i : nat) : bool :=
  match nth_error l i with
  | Some c =>
      ((c =? "]")%char || (c =? "}")%char) && negb (inside_string l i)
  | None => false
  end.

Definition bracket_in_string_at (l : list ascii) (i : nat) : bool :=
  match nth_error l i with
  | Some c => ((c =? "[")%char || (c =? "]")%char) && inside_string l i
  | None => false
  end.

Definition count_positions (p : nat -> bool) (n : nat) : nat :=
  List.length (filter p (seq 0 n)).

Definition openers (text : string) : nat :=
  let l := list_ascii_of_string text in
  count_positions (opener_at l) (List.length l).

Definition closers (text : string) : nat :=
  let l := list_ascii_of_string text in
  count_positions (closer_at l) (List.length l).

(** No bracket of the text stands inside a string. *)
Definition brackets_outside (text : string) : bool :=
  let l := list_ascii_of_string text in
  forallb (fun i => negb (bracket_in_string_at l i)) (seq 0 (List.length l)).

(** *** Texts and their escaped form *)

(** The code points of a text. *)
Definition code_points (t : string) : pystr :=
  map N_of_ascii (list_ascii_of_string t).

(** No control character (a code below 32). *)
Fixpoint no_control (t : string) : bool :=
  match t with
  | EmptyString => true
  | String c rest => negb (N_of_ascii c <? 32)%N && no_control rest
  end.

(** No control character, no double quote and no backslash. *)
Fixpoint literal (t : string) : bool :=
  match t with
  | EmptyString => true
  | String c rest =>
      negb (c =? dquote)%char && negb (c =? "\")%char
      && negb (N_of_ascii c <? 32)%N && literal rest
  end.

(** A text with a backslash put before each double quote and each
    backslash. *)
Fixpoint escape (t : string) : string :=
  match t with
  | EmptyString => EmptyString
  | String c rest =>
      if (c =? dquote)%char || (c =? "\")%char
      then String "\" (String c (escape rest))
      else String c (escape rest)
  end.

(** An entry of the queue that ends with a closing brace. *)
Definition ends_with_brace (entry : string) : Prop :=
  exists before, entry = (before ++ "}")%string.

(** *** Items inside an object *)

(** What the scanner does with an item met inside an object: the level and
    the queue are as before, the text without outer white space is appended,
    and the level never falls below where it was. *)
Definition scanned_inside (it : item) : Prop :=
  forall n r q l o,
    2 <= l -> n <= l ->
    scan (source_text it) (mkIterator r q o l false)
    = mkIterator r q (o ++ object_text it) l false
    /\ above n (source_text it) (mkIterator r q o l false) = true.

(** Case analysis on a character, in the order of the scanner's tests. *)
Ltac by_char c :=
  destruct (Ascii.eqb_spec c "{"%char);
  [ subst c
  | destruct (Ascii.eqb_spec c dquote);
    [ subst c
    | destruct (Ascii.eqb_spec c "}"%char);
      [ subst c
      | destruct (in_whitespace c) eqn:?;
        [
        | destruct (Ascii.eqb_spec c "["%char);
          [ subst c
          | destruct (Ascii.eqb_spec c "]"%char); [ subst c | ] ] ] ] ] ].

(** * Properties *)

(** ** Text *)

Lemma append_empty_r (s : string) : (s ++ "")%string = s.
Proof. induction s as [|c s IH]; simpl; [reflexivity | now rewrite IH]. Qed.

Lemma append_assoc (a b c : string) :
  ((a ++ b) ++ c)%string = (a ++ (b ++ c))%string.
Proof. induction a as [|x a IH]; simpl; [reflexivity | now rewrite IH]. Qed.

Lemma join_app (xs ys : list string) :
  join (xs ++ ys) = (join xs ++ join ys)%string.
Proof.
  induction xs as [|x xs IH]; simpl; [reflexivity|].
  now rewrite IH, append_assoc.
Qed.

Lemma join_chars (text : string) : join (chars text) = text.
Proof. induction text as [|c s IH]; simpl; [reflexivity | now rewrite IH]. Qed.

(** ** The scanner, one chunk at a time *)

Lemma scan_append (a b : string) (self : ResponseIterator) :
  scan (a ++ b) self = scan b (scan a self).
Proof. revert self; induction a as [|c a IH]; intro self; simpl; auto. Qed.

Lemma process_chunk_run (chunk : string) (self : ResponseIterator) :
  _process_chunk chunk self =
  if _level self =? 0 then
    match chunk with
    | EmptyString => (inl IndexError, self)
    | String c _ =>
        if (c =? "[")%char then (inr tt, scan chunk self)
        else (inl (malformed chunk), self)
    end
  else (inr tt, scan chunk self).
Proof.
  unfold _process_chunk, bind, get, modify, raise, ret.
  destruct (_level self =? 0); [|reflexivity].
  destruct chunk as [|c rest]; [reflexivity|].
  destruct (c =? "[")%char; reflexivity.
Qed.

Lemma process_chunk_started (chunk : string) (self : ResponseIterator) :
  _level self <> 0 -> _process_chunk chunk self = (inr tt, scan chunk self).
Proof.
  intro Hl. rewrite process_chunk_run.
  destruct (Z.eqb_spec (_level self) 0); [contradiction | reflexivity].
Qed.

Lemma process_chunk_ok (chunk : string) (self self' : ResponseIterator) :
  _process_chunk chunk self = (inr tt, self') -> self' = scan chunk self.
Proof.
  rewrite process_chunk_run.
  destruct (_level self =? 0).
  - destruct chunk as [|c rest]; [discriminate|].
    destruct (c =? "[")%char; congruence.
  - congruence.
Qed.

Lemma feed_ok (chunks : list string) (self self' : ResponseIterator) :
  feed chunks self = (inr tt, self') -> self' = scan (join chunks) self.
Proof.
  revert self; induction chunks as [|chunk rest IH]; intros self Hf; simpl in *.
  - unfold ret in Hf. congruence.
  - unfold bind in Hf.
    destruct (_process_chunk chunk self) as [[e|[]] self1] eqn:Hp; [discriminate|].
    apply process_chunk_ok in Hp. subst self1.
    rewrite scan_append. now apply IH.
Qed.

(** An empty chunk is harmless once the level has left 0. *)
Lemma empty_chunk_started (self : ResponseIterator) :
  _level self <> 0 -> _process_chunk EmptyString self = (inr tt, self).
Proof. intro Hl. now rewrite process_chunk_started. Qed.

(** ** The malformed-stream check *)

(** C10.  Whenever [_process_chunk] raises the [ValueError] of a malformed
    stream, no character of the chunk has been consumed: the level, the
    string flag, the object under construction and the queue are what they
    were before the call, and the message names the whole chunk. *)
Theorem malformed_error_atomic (chunk msg : string)
  (self self' : ResponseIterator) :
  _process_chunk chunk self = (inl (ValueError msg), self') ->
  self' = self
  /\ msg = ("Can only parse array of JSON objects, instead got " ++ chunk)%string.
Proof.
  rewrite process_chunk_run.
  destruct (_level self =? 0); [|discriminate].
  destruct chunk as [|c rest]; [discriminate|].
  destruct (c =? "[")%char; [discriminate|].
  unfold malformed. intro Heq. injection Heq as Hm Hs. now subst.
Qed.

Lemma malformed_error_atomic_witness :
  _process_chunk "not an array" (init (source []))
  = (inl (ValueError
            "Can only parse array of JSON objects, instead got not an array"),
     init (source []))
  /\ (init (source []) = init (source [])
      /\ "Can only parse array of JSON objects, instead got not an array"%string
         = ("Can only parse array of JSON objects, instead got "
            ++ "not an array")%string).
Proof.
  split; [reflexivity|].
  apply (malformed_error_atomic "not an array" _ (init (source [])) _).
  reflexivity.
Defined.

(** C6, as the code has it.  [_process_chunk] raises the [ValueError] exactly
    when the level is 0 on entry and the chunk has a first character that is
    not the opening bracket, white space included. *)
Theorem malformed_iff (chunk : string) (self : ResponseIterator) :
  (exists msg self', _process_chunk chunk self = (inl (ValueError msg), self'))
  <->
  (_level self = 0
   /\ exists c rest, chunk = String c rest /\ c <> "["%char).
Proof.
  rewrite process_chunk_run. split.
  - intros (msg & self' & Hp).
    destruct (Z.eqb_spec (_level self) 0) as [Hl|Hl]; [|discriminate].
    split; [assumption|].
    destruct chunk as [|c rest]; [discriminate|].
    exists c, rest. split; [reflexivity|].
    destruct (Ascii.eqb_spec c "["); [discriminate | assumption].
  - intros (Hl & c & rest & -> & Hc).
    rewrite Hl. simpl.
    destruct (Ascii.eqb_spec c "["); [contradiction|].
    eexists _, _. reflexivity.
Qed.

(** C6, as the spec has it, fails twice.  A first chunk whose first character
    is a space raises although the first character that is not white space is
    the opening bracket; and a chunk that comes after the array has been read,
    and an object queued, raises as well. *)
Lemma malformed_not_only_first :
  let self := init (source []) in
  _process_chunk " [{}]" self = (inl (malformed " [{}]"), self)
  /\ exists self1,
       _process_chunk "[{}]" self = (inr tt, self1)
       /\ _ready_objs self1 = ["{}"%string]
       /\ _process_chunk " " self1 = (inl (malformed " "), self1).
Proof.
  split; [reflexivity|].
  eexists. split; [reflexivity|]. split; reflexivity.
Qed.

(** ** Empty chunks *)

(** C7 at the failing input: the very first chunk is empty.  The index
    [chunk[0]] raises [IndexError]; the call is not a no-op. *)
Theorem empty_first_chunk_raises :
  _process_chunk EmptyString (init (source []))
  = (inl IndexError, init (source [])).
Proof. reflexivity. Qed.

(** ** Characters inside a string *)

(** Inside a string every character other than a bracket leaves the level
    as it is and is appended, save that an opening brace met at level 1
    empties the object first. *)
Lemma step_in_string (self : ResponseIterator) (c : ascii) :
  _in_string self = true ->
  c <> "["%char -> c <> "]"%char ->
  _level (step self c) = _level self
  /\ (c <> "{"%char \/ _level self <> 1 ->
      _obj (step self c) = (_obj self ++ chr c)%string).
Proof.
  intros Hs Hb1 Hb2. unfold step.
  destruct self as [r q o l s]; simpl in *; subst s.
  destruct (Ascii.eqb_spec c "{").
  - destruct (Z.eqb_spec l 1) as [Hl|Hl]; simpl; split; auto.
    intros [Hc|Hc]; contradiction.
  - destruct (c =? dquote)%char; [simpl; auto|].
    destruct (c =? "}")%char; [simpl; auto|].
    destruct (in_whitespace c); [simpl; auto|].
    destruct (Ascii.eqb_spec c "["); [contradiction|].
    destruct (Ascii.eqb_spec c "]"); [contradiction|].
    simpl; auto.
Qed.

(** C3 at the failing input: a closing bracket inside a string.  After the
    chunk that opens the array, an object and a string, the scanner is at
    level 2 inside a string; the bracket takes the level down to 1 and is not
    appended.  On the whole stream the object is never queued. *)
Theorem bracket_in_string_counts :
  let self := scan ("[{" ++ chr dquote) (init (source [])) in
  _in_string self = true
  /\ _level self = 2
  /\ _level (step self "]") = 1
  /\ _obj (step self "]") = _obj self
  /\ _ready_objs
       (snd (feed [("[{" ++ quoted "a" ++ ":" ++ quoted "]" ++ "}]")%string]
               (init (source []))))
     = [].
Proof. repeat split; reflexivity. Qed.

(** ** What a character adds to the queue *)

Lemma ready_step (self : ResponseIterator) (c : ascii) :
  _ready_objs (step self c) = _ready_objs self ++ emit self c.
Proof.
  destruct self as [r q o l s]. unfold step, emit.
  by_char c; simpl; try (now rewrite app_nil_r).
  - destruct (l =? 1), s; simpl; now rewrite app_nil_r.
  - destruct s; simpl; [now rewrite app_nil_r|].
    destruct (l - 1 =? 1); simpl; [reflexivity | now rewrite app_nil_r].
  - destruct s; simpl; now rewrite app_nil_r.
Qed.

Lemma emits_append (a b : string) (self : ResponseIterator) :
  emits (a ++ b) self = emits a self ++ emits b (scan a self).
Proof.
  revert self; induction a as [|c a IH]; intro self; simpl; [reflexivity|].
  now rewrite IH, app_assoc.
Qed.

Lemma ready_scan (text : string) (self : ResponseIterator) :
  _ready_objs (scan text self) = _ready_objs self ++ emits text self.
Proof.
  revert self; induction text as [|c text IH]; intro self; simpl.
  - now rewrite app_nil_r.
  - now rewrite IH, ready_step, app_assoc.
Qed.

Lemma response_step (self : ResponseIterator) (c : ascii) :
  _response (step self c) = _response self.
Proof.
  destruct self as [r q o l s]. unfold step.
  by_char c; simpl; try reflexivity.
  - destruct (l =? 1), s; reflexivity.
  - destruct s; simpl; [reflexivity|]. destruct (l - 1 =? 1); reflexivity.
  - destruct s; reflexivity.
Qed.

Lemma response_scan (text : string) (self : ResponseIterator) :
  _response (scan text self) = _response self.
Proof.
  revert self; induction text as [|c text IH]; intro self; simpl; auto.
  now rewrite IH, response_step.
Qed.

Lemma emit_closing (self : ResponseIterator) (c : ascii) :
  emit self c <> [] <->
  c = "}"%char /\ _in_string self = false /\ _level self = 2.
Proof.
  unfold emit.
  destruct (Ascii.eqb_spec c "}"); simpl.
  - destruct (_in_string self); simpl.
    + split; [congruence | intros (_ & Hs & _); discriminate].
    + destruct (Z.eqb_spec (_level self - 1) 1).
      * split; [intros _; repeat split; auto; lia | discriminate].
      * split; [congruence | intros (_ & _ & Hl); lia].
  - split; [congruence | intros (Hc & _); contradiction].
Qed.

Lemma emits_closing (text : string) (self : ResponseIterator) :
  emits text self <> [] <->
  exists pre post,
    text = (pre ++ "}" ++ post)%string
    /\ _in_string (scan pre self) = false
    /\ _level (scan pre self) = 2.
Proof.
  split.
  - revert self; induction text as [|c text IH]; intros self Hne; simpl in Hne.
    + congruence.
    + destruct (emit self c) as [|e es] eqn:He.
      * simpl in Hne. destruct (IH _ Hne) as (pre & post & -> & Hs & Hl).
        exists (String c pre), post. simpl. auto.
      * assert (Hc : emit self c <> []) by (rewrite He; discriminate).
        apply emit_closing in Hc. destruct Hc as (-> & Hs & Hl).
        exists EmptyString, text. simpl. auto.
  - intros (pre & post & -> & Hs & Hl).
    rewrite emits_append. simpl.
    assert (Hc : emit (scan pre self) "}" <> [])
      by (apply emit_closing; auto).
    destruct (emit (scan pre self) "}"); [congruence|].
    intro Heq. apply app_eq_nil in Heq. destruct Heq as [_ Heq]. discriminate.
Qed.

Lemma grows_iff {A : Type} (q d : list A) : q ++ d <> q <-> d <> [].
Proof.
  split.
  - intros Hne ->. apply Hne. now rewrite app_nil_r.
  - intros Hne Heq. apply Hne.
    rewrite <- (app_nil_r q) in Heq at 2. now apply app_inv_head in Heq.
Qed.

(** ** Levels along a text *)

Lemma above_append (n : Z) (a b : string) (self : ResponseIterator) :
  above n (a ++ b) self = above n a self && above n b (scan a self).
Proof.
  revert self; induction a as [|c a IH]; intro self; simpl; [reflexivity|].
  now rewrite IH, andb_assoc.
Qed.

Lemma guarded_append (a b : string) (self : ResponseIterator) :
  guarded (a ++ b) self = guarded a self && guarded b (scan a self).
Proof.
  revert self; induction a as [|c a IH]; intro self; simpl; [reflexivity|].
  now rewrite IH, andb_assoc.
Qed.

Lemma above_guarded (text : string) (self : ResponseIterator) :
  _level self <> 0 -> above 1 text self = true -> guarded text self = true.
Proof.
  revert self; induction text as [|c text IH]; intros self Hl Ha; simpl in *.
  - reflexivity.
  - apply andb_true_iff in Ha. destruct Ha as [Hc Ha].
    apply Z.leb_le in Hc.
    destruct (Z.eqb_spec (_level self) 0); [contradiction|]. simpl.
    apply IH; [lia | assumption].
Qed.

Lemma above_no_emits (text : string) (self : ResponseIterator) :
  above 2 text self = true -> emits text self = [].
Proof.
  revert self; induction text as [|c text IH]; intros self Ha; simpl in *.
  - reflexivity.
  - apply andb_true_iff in Ha. destruct Ha as [Hc Ha].
    rewrite (IH _ Ha), app_nil_r.
    destruct (emit self c) eqn:He; [reflexivity|].
    assert (Hne : emit self c <> []) by (rewrite He; discriminate).
    apply emit_closing in Hne. destruct Hne as (-> & Hs & Hl).
    apply Z.leb_le in Hc. exfalso.
    destruct self as [r q o lv ins]; simpl in *; subst.
    simpl in Hc. lia.
Qed.

Lemma above_prefix (n : Z) (a b : string) (self : ResponseIterator) :
  above n (a ++ b) self = true -> above n a self = true.
Proof. rewrite above_append. intro Ha. now apply andb_true_iff in Ha. Qed.

(** ** Streams of items *)

(** Induction on an item, with the hypothesis for every item of a group. *)
Lemma item_induction (P : item -> Prop)
  (HChar : forall c, P (Char c))
  (HStr : forall content, P (Str content))
  (HBraces : forall body, Forall P body -> P (Braces body)) :
  forall it, P it.
Proof.
  fix IH 1. intros [c|content|body].
  - apply HChar.
  - apply HStr.
  - apply HBraces. induction body as [|it body IHbody].
    + constructor.
    + constructor; [apply IH | exact IHbody].
Qed.

Lemma step_content (r : Response) (q : list string) (o : string) (l : Z)
  (c : ascii) :
  l <> 1 ->
  (c =? dquote)%char || (c =? "[")%char || (c =? "]")%char = false ->
  step (mkIterator r q o l true) c = mkIterator r q (o ++ chr c) l true.
Proof.
  intros Hl Hc. unfold step.
  by_char c; simpl in *; try discriminate; try reflexivity.
  destruct (Z.eqb_spec l 1); [contradiction | reflexivity].
Qed.

Lemma scan_content (n : Z) (r : Response) (q : list string) (l : Z)
  (content o : string) :
  l <> 1 -> n <= l -> content_ok content = true ->
  scan content (mkIterator r q o l true)
  = mkIterator r q (o ++ content) l true
  /\ above n content (mkIterator r q o l true) = true.
Proof.
  intros Hl Hn. revert o.
  induction content as [|c content IH]; intros o Hok; simpl in *.
  - now rewrite append_empty_r.
  - apply andb_true_iff in Hok. destruct Hok as [Hc Hok].
    apply negb_true_iff in Hc.
    rewrite (step_content r q o l c Hl Hc). simpl.
    destruct (IH (o ++ chr c)%string Hok) as [Hs Ha].
    rewrite Hs, Ha, append_assoc. simpl.
    split; [reflexivity|]. rewrite andb_true_r. now apply Z.leb_le.
Qed.

Lemma scan_quoted (n : Z) (r : Response) (q : list string) (l : Z)
  (content o : string) :
  l <> 1 -> n <= l -> content_ok content = true ->
  scan (quoted content) (mkIterator r q o l false)
  = mkIterator r q (o ++ quoted content) l false
  /\ above n (quoted content) (mkIterator r q o l false) = true.
Proof.
  intros Hl Hn Hok. unfold quoted.
  change (String dquote (content ++ chr dquote))
    with (chr dquote ++ (content ++ chr dquote))%string.
  rewrite !scan_append, !above_append.
  change (scan (chr dquote) (mkIterator r q o l false))
    with (mkIterator r q (o ++ chr dquote) l true).
  destruct (scan_content n r q l content (o ++ chr dquote)%string Hl Hn Hok)
    as [Hs Ha].
  rewrite Hs, Ha. simpl.
  assert (Hle : (n <=? l) = true) by now apply Z.leb_le.
  rewrite Hle. unfold step. simpl. rewrite !append_assoc. simpl. auto.
Qed.

Lemma scan_char (n : Z) (r : Response) (q : list string) (l : Z)
  (c : ascii) (o : string) :
  n <= l -> structural c = false ->
  scan (chr c) (mkIterator r q o l false)
  = mkIterator r q (o ++ object_text (Char c)) l false
  /\ above n (chr c) (mkIterator r q o l false) = true.
Proof.
  intros Hn Hc. unfold structural in Hc. simpl. unfold step.
  assert (Hle : (n <=? l) = true) by now apply Z.leb_le.
  by_char c; simpl in *; try discriminate.
  - rewrite append_empty_r, Hle. auto.
  - rewrite Hle. auto.
Qed.

Lemma scan_body (body : list item) :
  Forall scanned_inside body ->
  forall n r q l o,
    2 <= l -> n <= l ->
    scan (join (map source_text body)) (mkIterator r q o l false)
    = mkIterator r q (o ++ join (map object_text body)) l false
    /\ above n (join (map source_text body)) (mkIterator r q o l false) = true.
Proof.
  induction 1 as [|it body Hit _ IH]; intros n r q l o Hl Hn; simpl.
  - now rewrite append_empty_r.
  - rewrite scan_append, above_append.
    destruct (Hit n r q l o Hl Hn) as [Hs Ha]. rewrite Hs, Ha.
    destruct (IH n r q l (o ++ object_text it)%string Hl Hn) as [Hs' Ha'].
    rewrite Hs', Ha', append_assoc. auto.
Qed.

Lemma scan_item (it : item) : valid it = true -> scanned_inside it.
Proof.
  induction it as [c|content|body IH] using item_induction;
    intro Hv; simpl in Hv.
  - intros n r q l o Hl Hn. apply scan_char; [assumption|].
    now apply negb_true_iff.
  - intros n r q l o Hl Hn. apply scan_quoted; [lia | assumption | assumption].
  - assert (Hbody : Forall scanned_inside body).
    { rewrite forallb_forall in Hv. rewrite Forall_forall in IH |- *.
      intros it Hin. apply IH; auto. }
    intros n r q l o Hl Hn. cbn [source_text object_text append scan above].
    assert (Hopen : step (mkIterator r q o l false) "{"
                    = mkIterator r q (o ++ "{") (l + 1) false).
    { unfold step; simpl.
      destruct (Z.eqb_spec l 1); [lia | reflexivity]. }
    rewrite Hopen, scan_append, above_append.
    destruct (scan_body body Hbody n r q (l + 1) (o ++ "{")%string)
      as [Hs Ha]; [lia | lia |].
    rewrite Hs, Ha. simpl. unfold step; simpl.
    replace (l + 1 - 1) with l by lia.
    destruct (Z.eqb_spec l 1); [lia|]. simpl.
    rewrite !append_assoc. simpl.
    assert (H1 : (n <=? l + 1) = true) by (apply Z.leb_le; lia).
    assert (H2 : (n <=? l) = true) by (apply Z.leb_le; lia).
    rewrite H1, H2. auto.
Qed.

Lemma scan_valid_body (body : list item) :
  forallb valid body = true ->
  forall n r q l o,
    2 <= l -> n <= l ->
    scan (join (map source_text body)) (mkIterator r q o l false)
    = mkIterator r q (o ++ join (map object_text body)) l false
    /\ above n (join (map source_text body)) (mkIterator r q o l false) = true.
Proof.
  intro Hv. apply scan_body.
  rewrite forallb_forall in Hv. apply Forall_forall.
  intros it Hin. apply scan_item. auto.
Qed.

Lemma above_weaken (n m : Z) (text : string) (self : ResponseIterator) :
  n <= m -> above m text self = true -> above n text self = true.
Proof.
  intro Hnm. revert self.
  induction text as [|c text IH]; intros self Ha; simpl in *; [reflexivity|].
  apply andb_true_iff in Ha. destruct Ha as [Hc Ha]. apply Z.leb_le in Hc.
  rewrite (IH _ Ha), andb_true_r. apply Z.leb_le. lia.
Qed.

(** A group met between the outer brackets, at level 1: its text is built
    afresh and queued when its closing brace is read; the level is at least
    2 in between. *)
Lemma scan_group (body : list item) (r : Response) (q : list string)
  (o : string) :
  forallb valid body = true ->
  scan (source_text (Braces body)) (mkIterator r q o 1 false)
  = mkIterator r (q ++ [object_text (Braces body)])
      (object_text (Braces body)) 1 false
  /\ above 2 ("{" ++ join (map source_text body))
       (mkIterator r q o 1 false) = true
  /\ above 1 (source_text (Braces body)) (mkIterator r q o 1 false) = true.
Proof.
  intro Hv.
  destruct (scan_valid_body body Hv 2 r q 2 "{"%string) as [Hs Ha];
    [lia | lia |].
  assert (Ha1 := above_weaken 1 2 _ _ ltac:(lia) Ha).
  cbn [source_text object_text append scan above].
  assert (Hopen : step (mkIterator r q o 1 false) "{"
                  = mkIterator r q "{" 2 false) by reflexivity.
  rewrite Hopen, scan_append, above_append, Hs, Ha, Ha1.
  repeat split; reflexivity.
Qed.

Lemma scan_items (items : list item) :
  forallb valid_top items = true ->
  forall r q o,
    exists o',
      scan (join (map source_text items)) (mkIterator r q o 1 false)
      = mkIterator r (q ++ elements items) o' 1 false
      /\ above 1 (join (map source_text items)) (mkIterator r q o 1 false)
         = true.
Proof.
  induction items as [|it items IH]; intros Hv r q o.
  - exists o. simpl. now rewrite app_nil_r.
  - cbn [forallb] in Hv. apply andb_true_iff in Hv. destruct Hv as [Hit Hv].
    cbn [map join]. rewrite scan_append, above_append.
    destruct it as [c|content|body]; cbn [valid_top] in Hit; [|discriminate|].
    + apply negb_true_iff in Hit.
      destruct (scan_char 1 r q 1 c o) as [Hs Ha]; [lia | assumption |].
      change (source_text (Char c)) with (chr c). rewrite Hs, Ha.
      destruct (IH Hv r q (o ++ object_text (Char c))%string)
        as (o' & Hs' & Ha').
      exists o'. rewrite Hs', Ha'. auto.
    + destruct (scan_group body r q o Hit) as (Hs & _ & Ha). rewrite Hs, Ha.
      destruct (IH Hv r (q ++ [object_text (Braces body)])
                  (object_text (Braces body))) as (o' & Hs' & Ha').
      exists o'. rewrite Hs', Ha', <- app_assoc. auto.
Qed.

(** The whole array, from the initial state: the queue holds the elements in
    the order of the text, the level is back to 0, and no character but the
    first was met at level 0. *)
Lemma scan_array (items : list item) (r : Response) :
  forallb valid_top items = true ->
  exists o',
    scan (array_text items) (init r)
    = mkIterator r (elements items) o' 0 false
    /\ guarded (array_text items) (init r) = true.
Proof.
  intro Hv. unfold array_text, init.
  cbn [append scan guarded].
  assert (Hopen : step (mkIterator r [] "" 0 false) "["
                  = mkIterator r [] "" 1 false) by reflexivity.
  rewrite Hopen, scan_append, guarded_append.
  destruct (scan_items items Hv r [] ""%string) as (o' & Hs & Ha).
  assert (Hg := above_guarded _ (mkIterator r [] "" 1 false)
                  ltac:(simpl; lia) Ha).
  rewrite Hs, Hg.
  exists o'. split; reflexivity.
Qed.

(** ** Feeding fragments *)

Lemma process_chunk_guarded (chunk : string) (self : ResponseIterator) :
  nonempty chunk = true -> guarded chunk self = true ->
  _process_chunk chunk self = (inr tt, scan chunk self).
Proof.
  intros Hne Hg. rewrite process_chunk_run.
  destruct chunk as [|c rest]; [discriminate|].
  simpl in Hg. apply andb_true_iff in Hg. destruct Hg as [Hc _].
  destruct (_level self =? 0); [|reflexivity].
  simpl in Hc. now rewrite Hc.
Qed.

(** However a text is cut into fragments that are not empty, feeding the
    fragments is scanning the text, provided the text is guarded. *)
Lemma feed_guarded (chunks : list string) (self : ResponseIterator) :
  forallb nonempty chunks = true ->
  guarded (join chunks) self = true ->
  feed chunks self = (inr tt, scan (join chunks) self).
Proof.
  revert self; induction chunks as [|chunk rest IH]; intros self Hne Hg.
  - reflexivity.
  - cbn [forallb] in Hne. apply andb_true_iff in Hne. destruct Hne as [Hc Hne].
    cbn [join] in *. rewrite guarded_append in Hg.
    apply andb_true_iff in Hg. destruct Hg as [Hg1 Hg2].
    cbn [feed]. unfold bind.
    rewrite (process_chunk_guarded chunk self Hc Hg1), scan_append.
    now apply IH.
Qed.

Lemma chars_nonempty (text : string) : forallb nonempty (chars text) = true.
Proof. induction text as [|c text IH]; simpl; auto. Qed.

(** Cut into characters, a text is fed without exception only if it is
    guarded. *)
Lemma chars_feed_guarded (text : string) (self : ResponseIterator) :
  fst (feed (chars text) self) = inr tt -> guarded text self = true.
Proof.
  revert self; induction text as [|c text IH]; intros self Hf;
    cbn [chars feed guarded] in *; [reflexivity|].
  unfold bind in Hf. rewrite process_chunk_run in Hf.
  change (chr c) with (String c EmptyString) in Hf. cbn [scan] in Hf.
  destruct (_level self =? 0); simpl.
  - destruct (c =? "[")%char; [now apply IH | discriminate].
  - now apply IH.
Qed.

(** C2, as the code has it.  For a text that is not empty and in which every
    character met at level 0 is an opening bracket, the fragments of one
    character and the single fragment give the same result: no exception,
    and the state the scan of the text ends in. *)
Theorem one_char_fragments (text : string) (self : ResponseIterator) :
  nonempty text = true ->
  guarded text self = true ->
  feed (chars text) self = feed [text] self
  /\ feed [text] self = (inr tt, scan text self).
Proof.
  intros Hne Hg.
  assert (Hwhole : feed [text] self = (inr tt, scan text self)).
  { rewrite (feed_guarded [text] self); cbn [forallb join];
      rewrite ?append_empty_r, ?andb_true_r; auto. }
  split; [|exact Hwhole].
  rewrite Hwhole, (feed_guarded (chars text) self);
    rewrite ?join_chars; auto using chars_nonempty.
Qed.

Lemma one_char_fragments_witness :
  let text := ("[{" ++ quoted "a" ++ ":1}]")%string in
  let self := init (source []) in
  nonempty text = true
  /\ guarded text self = true
  /\ feed (chars text) self = feed [text] self
  /\ feed [text] self = (inr tt, scan text self).
Proof.
  split; [reflexivity|]. split; [reflexivity|].
  apply (one_char_fragments
           ("[{" ++ quoted "a" ++ ":1}]")%string (init (source [])));
    reflexivity.
Defined.

(** C2, as the spec has it, fails on a text with a space after the closing
    bracket.  As one fragment the text is scanned without exception; cut into
    characters, its last fragment is processed at level 0 and raises. *)
Lemma one_char_fragments_differ :
  let text := "[{}] "%string in
  let self := init (source []) in
  fst (feed [text] self) = inr tt
  /\ fst (feed (chars text) self) = inl (malformed " ")
  /\ feed (chars text) self <> feed [text] self.
Proof.
  split; [reflexivity|]. split; [reflexivity|].
  intro Heq. apply (f_equal fst) in Heq. discriminate.
Qed.

(** ** The scanner does not read the queue or the response *)

Lemma step_shape (o : string) (l : Z) (s : bool) (c : ascii) :
  exists o1 l1 s1 es,
    forall r q,
      step (mkIterator r q o l s) c = mkIterator r (q ++ es) o1 l1 s1
      /\ emit (mkIterator r q o l s) c = es.
Proof.
  exists (_obj (step (mkIterator (source []) [] o l s) c)),
         (_level (step (mkIterator (source []) [] o l s) c)),
         (_in_string (step (mkIterator (source []) [] o l s) c)),
         (emit (mkIterator (source []) [] o l s) c).
  intros r q. unfold step, emit.
  by_char c; simpl; rewrite ?app_nil_r; auto.
  - destruct (l =? 1), s; simpl; rewrite ?app_nil_r; auto.
  - destruct s; simpl; rewrite ?app_nil_r; auto.
    destruct (l - 1 =? 1); simpl; rewrite ?app_nil_r; auto.
  - destruct s; simpl; rewrite ?app_nil_r; auto.
Qed.

Lemma scan_shape (text : string) :
  forall o l s,
  exists o1 l1 s1 es g,
    forall r q,
      scan text (mkIterator r q o l s) = mkIterator r (q ++ es) o1 l1 s1
      /\ emits text (mkIterator r q o l s) = es
      /\ guarded text (mkIterator r q o l s) = g.
Proof.
  induction text as [|c text IH]; intros o l s.
  - exists o, l, s, [], true. intros r q. simpl. now rewrite app_nil_r.
  - destruct (step_shape o l s c) as (o1 & l1 & s1 & e & Hstep).
    destruct (IH o1 l1 s1) as (o2 & l2 & s2 & es & g & Hscan).
    exists o2, l2, s2, (e ++ es), ((negb (l =? 0) || (c =? "[")%char) && g).
    intros r q. cbn [scan emits guarded _level].
    destruct (Hstep r q) as [Hs He]. rewrite Hs, He.
    destruct (Hscan r (q ++ e)) as (Hs' & He' & Hg').
    rewrite Hs', He', Hg', app_assoc. auto.
Qed.

Lemma emits_frame (text : string) (r r' : Response) (q q' : list string)
  (o : string) (l : Z) (s : bool) :
  emits text (mkIterator r q o l s) = emits text (mkIterator r' q' o l s).
Proof.
  destruct (scan_shape text o l s) as (o1 & l1 & s1 & es & g & H).
  destruct (H r q) as (_ & -> & _). destruct (H r' q') as (_ & -> & _).
  reflexivity.
Qed.

Lemma guarded_frame (text : string) (r r' : Response) (q q' : list string)
  (o : string) (l : Z) (s : bool) :
  guarded text (mkIterator r q o l s) = guarded text (mkIterator r' q' o l s).
Proof.
  destruct (scan_shape text o l s) as (o1 & l1 & s1 & es & g & H).
  destruct (H r q) as (_ & _ & ->). destruct (H r' q') as (_ & _ & ->).
  reflexivity.
Qed.

(** ** The iterator *)

Section IteratorFacts.

Context {Msg : Type} `{MessageCls Msg}.

Lemma pull_loop_ready (itr : list string) (self : ResponseIterator) :
  _ready_objs self <> [] -> pull_loop itr self = (inr tt, self).
Proof.
  intro Hq. destruct itr; simpl; destruct (_ready_objs self);
    congruence.
Qed.

(** With a text in the queue, [__next__] pulls nothing: it takes the oldest
    text out of the queue and returns, or raises, what decoding it gives. *)
Lemma next_ready (self : ResponseIterator) (obj : string)
  (rest : list string) :
  _ready_objs self = obj :: rest ->
  __next__ self = (decode obj, set_ready_objs rest self).
Proof.
  intro Hq. unfold __next__, bind, get.
  rewrite pull_loop_ready by (rewrite Hq; discriminate).
  unfold _grab, decode. rewrite Hq.
  destruct (json_loads_quote (obj ++ chr dquote)); reflexivity.
Qed.

Lemma next_exhausted (self : ResponseIterator) :
  _ready_objs self = [] -> pending (_response self) = [] ->
  __next__ self = (inl StopIteration, self).
Proof.
  intros Hq Hp. unfold __next__, bind, get. rewrite Hp. simpl. rewrite Hq.
  reflexivity.
Qed.

(** With an empty queue, [__next__] pulls a fragment, processes it and goes
    on as a call on the state after it would. *)
Lemma next_pull (chunk : string) (rest : list string) (o : string) (l : Z)
  (s : bool) (self1 : ResponseIterator) :
  _process_chunk chunk (mkIterator (source rest) [] o l s) = (inr tt, self1) ->
  __next__ (mkIterator (source (chunk :: rest)) [] o l s) = __next__ self1.
Proof.
  intro Hp. unfold __next__, bind, get.
  cbn [_response pending source pull_loop _ready_objs closed set_response
       _obj _level _in_string].
  unfold set_response.
  cbn [_response pending source _ready_objs _obj _level _in_string].
  unfold source in Hp. rewrite Hp.
  apply process_chunk_ok in Hp. subst self1.
  rewrite response_scan. reflexivity.
Qed.

Lemma calls_same (n : nat) (a b : ResponseIterator) :
  __next__ a = __next__ b -> fst (calls n a) = fst (calls n b).
Proof.
  intro Heq. destruct n as [|n]; [reflexivity|].
  cbn [calls]. rewrite Heq. reflexivity.
Qed.

Lemma calls_exhausted (k : nat) (self : ResponseIterator) :
  _ready_objs self = [] -> pending (_response self) = [] ->
  fst (calls k self) = repeat (inl StopIteration) k.
Proof.
  intros Hq Hp. induction k as [|k IH]; [reflexivity|].
  cbn [calls]. rewrite (next_exhausted self Hq Hp).
  destruct (calls k self) as [rs self']. simpl in *. now rewrite IH.
Qed.

Lemma calls_ready (n : nat) (r : Response) (obj : string)
  (q : list string) (o : string) (l : Z) (s : bool) :
  fst (calls (S n) (mkIterator r (obj :: q) o l s))
  = decode obj :: fst (calls n (mkIterator r q o l s)).
Proof.
  cbn [calls].
  rewrite (next_ready (mkIterator r (obj :: q) o l s) obj q eq_refl).
  unfold set_ready_objs. cbn [_response _obj _level _in_string].
  destruct (calls n (mkIterator r q o l s)). reflexivity.
Qed.

(** The calls on a stream whose text is guarded: the texts already queued and
    the texts the rest of the stream adds are decoded one per call, oldest
    first, and every later call raises [StopIteration]. *)
Lemma calls_stream (chunks : list string) :
  forall (o : string) (l : Z) (s : bool) (q : list string),
    let self := mkIterator (source chunks) q o l s in
    forallb nonempty chunks = true ->
    guarded (join chunks) self = true ->
    forall k,
      fst (calls (List.length (q ++ emits (join chunks) self) + k) self)
      = map decode (q ++ emits (join chunks) self)
        ++ repeat (inl StopIteration) k.
Proof.
  assert (Hready : forall chunks o l s obj q,
    (forallb nonempty chunks = true ->
     guarded (join chunks) (mkIterator (source chunks) q o l s) = true ->
     forall k,
       fst (calls (List.length
                     (q ++ emits (join chunks)
                             (mkIterator (source chunks) q o l s)) + k)
              (mkIterator (source chunks) q o l s))
       = map decode (q ++ emits (join chunks)
                             (mkIterator (source chunks) q o l s))
         ++ repeat (inl StopIteration) k) ->
    forallb nonempty chunks = true ->
    guarded (join chunks) (mkIterator (source chunks) (obj :: q) o l s)
    = true ->
    forall k,
      fst (calls (List.length
                    ((obj :: q) ++ emits (join chunks)
                       (mkIterator (source chunks) (obj :: q) o l s)) + k)
             (mkIterator (source chunks) (obj :: q) o l s))
      = map decode ((obj :: q) ++ emits (join chunks)
                       (mkIterator (source chunks) (obj :: q) o l s))
        ++ repeat (inl StopIteration) k).
  { intros chunks0 o l s obj q IHq Hne Hg k.
    rewrite (emits_frame _ _ (source chunks0) (obj :: q) q).
    rewrite (guarded_frame _ _ (source chunks0) (obj :: q) q) in Hg.
    cbn [app List.length Nat.add map]. rewrite calls_ready.
    f_equal. now apply IHq. }
  induction chunks as [|chunk rest IHc]; intros o l s q;
    induction q as [|obj q IHq]; intros self Hne Hg k; subst self.
  - simpl. now apply calls_exhausted.
  - now apply Hready.
  - cbn [forallb] in Hne. apply andb_true_iff in Hne. destruct Hne as [Hc Hne].
    cbn [join] in *. rewrite guarded_append in Hg.
    apply andb_true_iff in Hg. destruct Hg as [Hg1 Hg2].
    rewrite emits_append.
    destruct (scan_shape chunk o l s) as (o1 & l1 & s1 & es & g & Hshape).
    destruct (Hshape (source (chunk :: rest)) []) as (Hs & He & _).
    destruct (Hshape (source rest) []) as (Hs' & _ & _).
    rewrite Hs in *. rewrite He. cbn [app] in *.
    rewrite (guarded_frame _ _ (source rest) _ es) in Hg2.
    rewrite (emits_frame _ _ (source rest) _ es).
    rewrite (guarded_frame _ _ (source rest) _ []) in Hg1.
    assert (Hp := process_chunk_guarded chunk _ Hc Hg1).
    rewrite Hs' in Hp. cbn [app] in Hp.
    rewrite (calls_same _ _ _ (next_pull chunk rest o l s _ Hp)).
    apply (IHc o1 l1 s1 es Hne Hg2 k).
  - now apply Hready.
Qed.

End IteratorFacts.

(** ** Order of delivery *)

Lemma compact_text (it : item) :
  compact it = true -> object_text it = source_text it.
Proof.
  induction it as [c|content|body IH] using item_induction;
    intro Hc; simpl in *.
  - apply negb_true_iff in Hc. now rewrite Hc.
  - reflexivity.
  - assert (Hj : join (map object_text body) = join (map source_text body)).
    { induction IH as [|it body Hit _ IHb]; simpl in *; [reflexivity|].
      apply andb_true_iff in Hc. destruct Hc as [Hc1 Hc2].
      now rewrite (Hit Hc1), (IHb Hc2). }
    now rewrite Hj.
Qed.

Lemma compact_elements (items : list item) :
  forallb compact items = true -> elements items = element_sources items.
Proof.
  induction items as [|it items IH]; intro Hc; simpl in *; [reflexivity|].
  apply andb_true_iff in Hc. destruct Hc as [Hit Hc].
  destruct it as [c|content|body]; auto.
  rewrite (IH Hc). f_equal. now apply (compact_text (Braces body)).
Qed.

Lemma emits_array (items : list item) (r : Response) :
  forallb valid_top items = true ->
  emits (array_text items) (init r) = elements items.
Proof.
  intro Hv. destruct (scan_array items r Hv) as (o' & Hs & _).
  apply (f_equal _ready_objs) in Hs. rewrite ready_scan in Hs. exact Hs.
Qed.




(** ** No entry before the closing brace *)

Lemma above_level (n : Z) (text : string) (self : ResponseIterator) :
  above n text self = true -> n <= _level self ->
  n <= _level (scan text self).
Proof.
  revert self; induction text as [|c text IH]; intros self Ha Hl; simpl in *.
  - assumption.
  - apply andb_true_iff in Ha. destruct Ha as [Hc Ha].
    apply IH; [assumption | now apply Z.leb_le].
Qed.

Lemma append_last_split (a : string) (c : ascii) (head tail : string) :
  (a ++ chr c)%string = (head ++ tail)%string ->
  nonempty tail = true ->
  exists mid, a = (head ++ mid)%string.
Proof.
  revert a; induction head as [|x head IH]; intros a Heq Hne.
  - exists a. reflexivity.
  - destruct a as [|y a]; simpl in Heq.
    + injection Heq as _ Heq.
      destruct head; [destruct tail; discriminate | discriminate].
    + injection Heq as -> Heq.
      destruct (IH a Heq Hne) as (mid & ->). exists mid. reflexivity.
Qed.




(** ** Decoding *)

Lemma not_all_whitespace (t : string) :
  all_json_whitespace (t ++ chr dquote) = false.
Proof.
  induction t as [|c t IH]; simpl; [reflexivity|].
  rewrite IH. apply andb_false_r.
Qed.

(** A text that opens with a brace and a double quote, as the text of every
    JSON object with a member does, is no string literal once put between
    quotes: the literal ends at that quote and the rest is extra data. *)
Lemma loads_object_text (t : string) :
  json_loads_quote (("{" ++ chr dquote ++ t) ++ chr dquote)
  = inl (JSONDecodeError "Extra data").
Proof.
  unfold json_loads_quote. simpl. now rewrite not_all_whitespace.
Qed.

(** The stream the decoding is made for escapes its quotes. *)
Example decode_escaped :
  decode (Msg := pystr)
    ("{\" ++ chr dquote ++ "a\" ++ chr dquote ++ ":1}")
  = inr (map N_of_ascii
           (list_ascii_of_string ("{" ++ quoted "a" ++ ":1}"))).
Proof. reflexivity. Qed.

(** C5, as the code has it.  With a text in the queue, [__next__] pulls no
    fragment: it removes the oldest text from the queue, reads the text put
    between double quotes as a JSON string literal, and returns what the
    message class makes of the decoded literal; when either step raises, the
    call raises and the text is gone from the queue all the same.  For a
    text that opens with a brace and a double quote the literal is followed
    by extra data and the call raises. *)
Theorem next_decodes_quoted_text {Msg : Type} `{MessageCls Msg}
  (self : ResponseIterator) (obj : string) (rest : list string) :
  _ready_objs self = obj :: rest ->
  __next__ self
  = (match json_loads_quote (obj ++ chr dquote) with
     | inl e => inl e
     | inr doc => from_json doc
     end,
     set_ready_objs rest self)
  /\ (forall t,
        obj = ("{" ++ chr dquote ++ t)%string ->
        fst (__next__ self) = inl (JSONDecodeError "Extra data")).
Proof.
  intro Hq. rewrite (next_ready self obj rest Hq). split; [reflexivity|].
  intros t ->. unfold decode. cbn [fst]. now rewrite loads_object_text.
Qed.

Lemma next_decodes_quoted_text_witness :
  let obj := ("{\" ++ chr dquote ++ "a\" ++ chr dquote ++ ":1}")%string in
  let self := mkIterator (source []) [obj; "{}"%string] obj 1 false in
  _ready_objs self = [obj; "{}"%string]
  /\ __next__ (Msg := pystr) self
     = (inr (map N_of_ascii
               (list_ascii_of_string ("{" ++ quoted "a" ++ ":1}"))),
        set_ready_objs ["{}"%string] self).
Proof.
  split; [reflexivity|].
  exact (proj1 (next_decodes_quoted_text (Msg := pystr)
                  (mkIterator (source [])
                     [("{\" ++ chr dquote ++ "a\" ++ chr dquote ++ ":1}")%string;
                      "{}"%string]
                     ("{\" ++ chr dquote ++ "a\" ++ chr dquote ++ ":1}")%string
                     1 false)
                  _ _ eq_refl)).
Defined.

(** C5, as the spec has it, fails on the spec's own example: of the two
    fragments the object text is the one expected, yet the call raises and
    returns nothing made of that text. *)
Lemma next_raises_on_plain_json :
  let chunks := ["[{"%string; (quoted "a" ++ ":1}]")%string] in
  let text := ("{" ++ quoted "a" ++ ":1}")%string in
  _ready_objs (snd (feed chunks (init (source [])))) = [text]
  /\ fst (__next__ (Msg := pystr) (init (source chunks)))
     = inl (JSONDecodeError "Extra data")
  /\ fst (__next__ (Msg := pystr) (init (source chunks)))
     <> from_json (map N_of_ascii (list_ascii_of_string text)).
Proof.
  split; [reflexivity|]. split; [reflexivity|].
  intro Heq. vm_compute in Heq. discriminate.
Qed.

(** ** Cancelling *)

Lemma cancels_keep_scanner (m : nat) (r : Response) (q : list string)
  (o : string) (l : Z) (s : bool) :
  Nat.iter m (fun self => snd (cancel self)) (mkIterator r q o l s)
  = mkIterator (Nat.iter m close r) q o l s.
Proof.
  induction m as [|m IH]; [reflexivity|].
  change (snd (cancel (Nat.iter m (fun self => snd (cancel self))
                         (mkIterator r q o l s)))
          = mkIterator (close (Nat.iter m close r)) q o l s).
  rewrite IH. reflexivity.
Qed.

Lemma calls_drain {Msg : Type} `{MessageCls Msg} (q : list string)
  (r : Response) (o : string) (l : Z) (s : bool) :
  calls (List.length q) (mkIterator r q o l s)
  = (map decode q, mkIterator r [] o l s).
Proof.
  induction q as [|obj q IH]; [reflexivity|].
  cbn [List.length calls map].
  rewrite (next_ready (mkIterator r (obj :: q) o l s) obj q eq_refl).
  unfold set_ready_objs. cbn [_response _obj _level _in_string].
  rewrite IH. reflexivity.
Qed.



(** ** The level as a count *)

Lemma scan_fold (text : string) (self : ResponseIterator) :
  scan text self = fold_left step (list_ascii_of_string text) self.
Proof. revert self; induction text as [|c text IH]; intro self; simpl; auto. Qed.

Lemma whitespace_not_bracket (c : ascii) :
  in_whitespace c = true ->
  (c =? "[")%char = false /\ (c =? "]")%char = false.
Proof.
  intro Hw. split.
  - destruct (Ascii.eqb_spec c "["); [subst; discriminate | reflexivity].
  - destruct (Ascii.eqb_spec c "]"); [subst; discriminate | reflexivity].
Qed.

Lemma in_string_step (self : ResponseIterator) (c : ascii) :
  _in_string (step self c)
  = if (c =? dquote)%char then negb (_in_string self) else _in_string self.
Proof.
  destruct self as [r q o l s]. unfold step.
  by_char c; simpl; try reflexivity.
  - destruct (l =? 1), s; reflexivity.
  - destruct s; simpl; [reflexivity|]. destruct (l - 1 =? 1); reflexivity.
  - destruct s; reflexivity.
Qed.

Lemma level_step (self : ResponseIterator) (c : ascii) :
  _level (step self c)
  = _level self
    + (if (c =? "[")%char || ((c =? "{")%char && negb (_in_string self))
       then 1 else 0)
    - (if (c =? "]")%char || ((c =? "}")%char && negb (_in_string self))
       then 1 else 0).
Proof.
  destruct self as [r q o l s]. unfold step.
  by_char c; simpl.
  all: try (destruct (whitespace_not_bracket c Heqb) as [-> ->]).
  all: repeat match goal with
         | Hne : ?x <> ?d |- context [(?x =? ?d)%char] =>
             destruct (Ascii.eqb_spec x d); [contradiction|]
         end.
  all: destruct s; simpl;
    repeat match goal with
      | |- context [if Z.eqb ?x ?y then _ else _] =>
          destruct (Z.eqb x y); simpl
      end; lia.
Qed.

Lemma count_quote_last (l : list ascii) (c : ascii) :
  Nat.odd (count_occ ascii_dec (l ++ [c]) dquote)
  = if (c =? dquote)%char then negb (Nat.odd (count_occ ascii_dec l dquote))
    else Nat.odd (count_occ ascii_dec l dquote).
Proof.
  rewrite count_occ_app. simpl.
  destruct (ascii_dec c dquote) as [->|Hne].
  - rewrite Ascii.eqb_refl, Nat.add_1_r, Nat.odd_succ, Nat.negb_odd.
    reflexivity.
  - destruct (Ascii.eqb_spec c dquote); [contradiction|].
    now rewrite Nat.add_0_r.
Qed.

Lemma in_string_counts (r : Response) (l : list ascii) :
  _in_string (fold_left step l (init r))
  = Nat.odd (count_occ ascii_dec l dquote).
Proof.
  induction l as [|c l IH] using rev_ind; [reflexivity|].
  rewrite fold_left_app. cbn [fold_left].
  now rewrite in_string_step, IH, count_quote_last.
Qed.

Lemma count_positions_next (p : nat -> bool) (n : nat) :
  count_positions p (S n)
  = (count_positions p n + if p n then 1 else 0)%nat.
Proof.
  unfold count_positions. rewrite seq_S, filter_app, length_app. simpl.
  destruct (p n); reflexivity.
Qed.

Lemma count_positions_ext (p p' : nat -> bool) (n : nat) :
  (forall i, (i < n)%nat -> p i = p' i) ->
  count_positions p n = count_positions p' n.
Proof.
  induction n as [|n IH]; intro Hext; [reflexivity|].
  rewrite !count_positions_next, IH, Hext by auto with arith. reflexivity.
Qed.

Lemma inside_string_before (l : list ascii) (c : ascii) (i : nat) :
  (i <= List.length l)%nat ->
  inside_string (l ++ [c]) i = inside_string l i.
Proof.
  intro Hi. unfold inside_string. rewrite firstn_app.
  replace (i - List.length l)%nat with 0%nat by lia.
  simpl. now rewrite app_nil_r.
Qed.

Lemma inside_string_end (l : list ascii) :
  inside_string l (List.length l)
  = Nat.odd (count_occ ascii_dec l dquote).
Proof. unfold inside_string. now rewrite firstn_all. Qed.

Lemma level_of_fold (r : Response) (l : list ascii) :
  _level (fold_left step l (init r))
  = Z.of_nat (count_positions (raises_at l) (List.length l))
    - Z.of_nat (count_positions (lowers_at l) (List.length l)).
Proof.
  induction l as [|c l IH] using rev_ind; [reflexivity|].
  rewrite fold_left_app. cbn [fold_left].
  rewrite level_step, IH, in_string_counts, length_app. cbn [List.length].
  rewrite Nat.add_1_r, !count_positions_next.
  rewrite (count_positions_ext (raises_at (l ++ [c])) (raises_at l)).
  2:{ intros i Hi. unfold raises_at.
      rewrite nth_error_app1, inside_string_before by lia. reflexivity. }
  rewrite (count_positions_ext (lowers_at (l ++ [c])) (lowers_at l)).
  2:{ intros i Hi. unfold lowers_at.
      rewrite nth_error_app1, inside_string_before by lia. reflexivity. }
  assert (Ho : raises_at (l ++ [c]) (List.length l)
               = (c =? "[")%char
                 || (c =? "{")%char
                    && negb (Nat.odd (count_occ ascii_dec l dquote))).
  { unfold raises_at. rewrite nth_error_app2, Nat.sub_diag by lia.
    cbn [nth_error].
    now rewrite inside_string_before, inside_string_end by lia. }
  assert (Hc : lowers_at (l ++ [c]) (List.length l)
               = (c =? "]")%char
                 || (c =? "}")%char
                    && negb (Nat.odd (count_occ ascii_dec l dquote))).
  { unfold lowers_at. rewrite nth_error_app2, Nat.sub_diag by lia.
    cbn [nth_error].
    now rewrite inside_string_before, inside_string_end by lia. }
  rewrite Ho, Hc.
  destruct ((c =? "[")%char
            || (c =? "{")%char && negb (Nat.odd (count_occ ascii_dec l dquote)));
    destruct ((c =? "]")%char
              || (c =? "}")%char
                 && negb (Nat.odd (count_occ ascii_dec l dquote)));
    lia.
Qed.

Lemma outside_positions (text : string) (i : nat) :
  brackets_outside text = true ->
  (i < List.length (list_ascii_of_string text))%nat ->
  raises_at (list_ascii_of_string text) i
  = opener_at (list_ascii_of_string text) i
  /\ lowers_at (list_ascii_of_string text) i
     = closer_at (list_ascii_of_string text) i.
Proof.
  unfold brackets_outside. intros Hout Hi.
  rewrite forallb_forall in Hout.
  assert (Hb := Hout i ltac:(apply in_seq; lia)).
  apply negb_true_iff in Hb.
  unfold bracket_in_string_at, raises_at, lowers_at, opener_at, closer_at
    in *.
  destruct (nth_error (list_ascii_of_string text) i) as [c|]; [|auto].
  destruct (c =? "[")%char, (c =? "]")%char, (c =? "{")%char,
    (c =? "}")%char,
    (inside_string (list_ascii_of_string text) i);
    simpl in *; auto; discriminate.
Qed.




(** * Further properties of the scanner and of the iterator *)

(** ** The queue under [_process_chunk] *)

Lemma emit_ends (self : ResponseIterator) (c : ascii) :
  Forall ends_with_brace (emit self c).
Proof.
  unfold emit.
  destruct (Ascii.eqb_spec c "}"); simpl; [|constructor].
  destruct (negb (_in_string self) && (_level self - 1 =? 1));
    constructor; [|constructor].
  subst c. now exists (_obj self).
Qed.

Lemma emits_end (text : string) (self : ResponseIterator) :
  Forall ends_with_brace (emits text self).
Proof.
  revert self; induction text as [|c text IH]; intro self; simpl.
  - constructor.
  - apply Forall_app. split; [apply emit_ends | apply IH].
Qed.

(** X1.  Whatever the chunk and whether or not the call raises,
    [_process_chunk] keeps the entries the queue holds, in their order, and
    only adds entries after them; each entry it adds ends with a closing
    brace. *)
Theorem queue_only_grows (chunk : string) (self : ResponseIterator) :
  exists added,
    _ready_objs (snd (_process_chunk chunk self)) = _ready_objs self ++ added
    /\ Forall ends_with_brace added.
Proof.
  rewrite process_chunk_run.
  assert (Hscan : exists added,
             _ready_objs (scan chunk self) = _ready_objs self ++ added
             /\ Forall ends_with_brace added).
  { exists (emits chunk self). split; [apply ready_scan | apply emits_end]. }
  assert (Hself : exists added : list string,
             _ready_objs self = _ready_objs self ++ added
             /\ Forall ends_with_brace added).
  { exists []. split; [now rewrite app_nil_r | constructor]. }
  destruct (_level self =? 0); [|exact Hscan].
  destruct chunk as [|c rest]; [exact Hself|].
  destruct (c =? "[")%char; [exact Hscan | exact Hself].
Qed.

(** ** The string flag *)

Lemma in_string_fold (l : list ascii) (self : ResponseIterator) :
  _in_string (fold_left step l self)
  = xorb (_in_string self) (Nat.odd (count_occ ascii_dec l dquote)).
Proof.
  induction l as [|c l IH] using rev_ind.
  - simpl. now rewrite xorb_false_r.
  - rewrite fold_left_app. cbn [fold_left].
    rewrite in_string_step, IH, count_quote_last.
    destruct (c =? dquote)%char; [|reflexivity].
    destruct (_in_string self), (Nat.odd (count_occ ascii_dec l dquote));
      reflexivity.
Qed.

(** X2.  After a chunk that is processed without exception the string flag
    has changed exactly when the chunk holds an odd number of double quotes:
    every double quote switches it, also one that follows a backslash. *)
Theorem in_string_is_quote_parity (chunk : string)
  (self self' : ResponseIterator) :
  _process_chunk chunk self = (inr tt, self') ->
  _in_string self'
  = xorb (_in_string self)
      (Nat.odd (count_occ ascii_dec (list_ascii_of_string chunk) dquote)).
Proof.
  intro Hp. apply process_chunk_ok in Hp. subst self'.
  rewrite scan_fold. apply in_string_fold.
Qed.

Lemma in_string_is_quote_parity_witness :
  let chunk := ("[{" ++ quoted "a\" ++ chr dquote)%string in
  let self := init (source []) in
  _process_chunk chunk self = (inr tt, scan chunk self)
  /\ _in_string (scan chunk self)
     = xorb (_in_string self)
         (Nat.odd (count_occ ascii_dec (list_ascii_of_string chunk) dquote)).
Proof.
  split; [reflexivity|].
  apply (in_string_is_quote_parity
           ("[{" ++ quoted "a\" ++ chr dquote)%string (init (source []))).
  reflexivity.
Defined.

(** ** White space outside strings *)

Lemma step_whitespace (self : ResponseIterator) (c : ascii) :
  in_whitespace c = true -> _in_string self = false -> step self c = self.
Proof.
  intros Hw Hs. destruct self as [r q o l s]. simpl in Hs. subst s.
  unfold step. by_char c; try discriminate. reflexivity.
Qed.

(** X3.  A white-space character that stands in a chunk after its first
    character, at a place where the scanner is outside a string, changes
    nothing: the chunk with that character is processed without exception
    exactly when the chunk without it is, and both calls end in the same
    state. *)
Theorem whitespace_is_transparent (before after : string) (c : ascii)
  (self self' : ResponseIterator) :
  nonempty before = true ->
  in_whitespace c = true ->
  _in_string (scan before self) = false ->
  _process_chunk (before ++ chr c ++ after) self = (inr tt, self')
  <-> _process_chunk (before ++ after) self = (inr tt, self').
Proof.
  intros Hne Hw Hs.
  assert (Hscan : scan (before ++ chr c ++ after) self
                  = scan (before ++ after) self).
  { rewrite !scan_append. cbn [chr append scan].
    now rewrite (step_whitespace _ c Hw Hs). }
  rewrite !process_chunk_run, Hscan.
  destruct before as [|x before]; [discriminate|]. cbn [append].
  destruct (_level self =? 0); [|reflexivity].
  destruct (x =? "[")%char; [reflexivity|].
  split; discriminate.
Qed.

Lemma whitespace_is_transparent_witness :
  let before := ("[{" ++ quoted "a b" ++ ":")%string in
  let after := "1}]"%string in
  let self := init (source []) in
  nonempty before = true
  /\ in_whitespace " " = true
  /\ _in_string (scan before self) = false
  /\ (_process_chunk (before ++ chr " " ++ after) self
      = (inr tt, scan (before ++ after) self)
      <-> _process_chunk (before ++ after) self
          = (inr tt, scan (before ++ after) self)).
Proof.
  split; [reflexivity|]. split; [reflexivity|]. split; [reflexivity|].
  apply (whitespace_is_transparent
           ("[{" ++ quoted "a b" ++ ":")%string "1}]"%string " "%char
           (init (source [])));
    reflexivity.
Defined.

(** ** What the calls deliver *)

Section Delivery.

Context {Msg : Type} `{MessageCls Msg}.

Lemma calls_firstn (n m : nat) (self : ResponseIterator) :
  fst (calls n self) = firstn n (fst (calls (n + m) self)).
Proof.
  revert self; induction n as [|n IH]; intro self; [reflexivity|].
  cbn [calls Nat.add]. destruct (__next__ self) as [res self1].
  specialize (IH self1).
  destruct (calls n self1) as [rs self2].
  destruct (calls (n + m) self1) as [rs' self3].
  simpl in *. now rewrite IH.
Qed.

Lemma calls_guarded (chunks : list string) (n : nat) :
  forallb nonempty chunks = true ->
  guarded (join chunks) (init (source chunks)) = true ->
  fst (calls n (init (source chunks)))
  = firstn n
      (map decode (_ready_objs (scan (join chunks) (init (source chunks))))
       ++ repeat (inl StopIteration) n).
Proof.
  intros Hne Hg.
  assert (Hcalls := calls_stream chunks ""%string 0 false [] Hne Hg n).
  cbv zeta in Hcalls. fold (init (source chunks)) in Hcalls.
  rewrite ready_scan. cbn [init _ready_objs].
  rewrite <- Hcalls, Nat.add_comm. apply calls_firstn.
Qed.

(** X4.  For a stream of fragments that are not empty, in whose text every
    character met at level 0 is an opening bracket, the calls of [__next__]
    deliver, decoded and in order, the entries that one scan of the whole
    text queues, and every call after them raises [StopIteration], also
    when the text stops in the middle of an object. *)
Theorem calls_deliver_the_scan (chunks : list string) (n : nat) :
  forallb nonempty chunks = true ->
  guarded (join chunks) (init (source chunks)) = true ->
  fst (calls n (init (source chunks)))
  = firstn n
      (map decode (_ready_objs (scan (join chunks) (init (source chunks))))
       ++ repeat (inl StopIteration) n).
Proof. apply calls_guarded. Qed.

(** X5.  Two streams of fragments that are not empty and have the same text,
    in which every character met at level 0 is an opening bracket, give the
    same results call after call. *)
Theorem calls_ignore_the_cut (chunks chunks' : list string) (n : nat) :
  forallb nonempty chunks = true ->
  forallb nonempty chunks' = true ->
  join chunks = join chunks' ->
  guarded (join chunks) (init (source chunks)) = true ->
  fst (calls n (init (source chunks)))
  = fst (calls n (init (source chunks'))).
Proof.
  intros Hne Hne' Hjoin Hg.
  assert (Hg' : guarded (join chunks') (init (source chunks')) = true).
  { rewrite <- Hjoin. unfold init in *.
    now rewrite (guarded_frame _ _ (source chunks) _ []). }
  rewrite (calls_guarded chunks n Hne Hg), (calls_guarded chunks' n Hne' Hg').
  rewrite <- Hjoin, !ready_scan. unfold init.
  now rewrite (emits_frame _ (source chunks) (source chunks') [] []).
Qed.

(** X6.  With an empty queue and the level at 0, a pulled fragment whose
    first character is not the opening bracket makes [__next__] raise the
    [ValueError], and an empty fragment makes it raise [IndexError]; either
    way the fragment is gone from the source and nothing else has changed,
    so the next call goes on with the fragment that follows. *)
Theorem bad_fragment_is_consumed (c : ascii) (tail : string)
  (rest : list string) (o : string) (s : bool) :
  c <> "["%char ->
  __next__ (mkIterator (source (String c tail :: rest)) [] o 0 s)
  = (inl (malformed (String c tail)), mkIterator (source rest) [] o 0 s)
  /\ __next__ (mkIterator (source (EmptyString :: rest)) [] o 0 s)
     = (inl IndexError, mkIterator (source rest) [] o 0 s).
Proof.
  intro Hc. unfold __next__, bind, get.
  cbn [_response pending source pull_loop _ready_objs closed].
  unfold set_response. cbn [_response _ready_objs _obj _level _in_string closed].
  rewrite !process_chunk_run. cbn [_level Z.eqb].
  destruct (Ascii.eqb_spec c "["); [contradiction|]. split; reflexivity.
Qed.

(** X7.  With an empty queue, [__next__] stops pulling at the first fragment
    that queues an entry: when the fragment at the head of the source is
    processed without exception and leaves entries in the queue, the call
    returns or raises what decoding the first of them gives, the other
    entries stay queued, and the fragments behind are still in the source. *)
Theorem next_pulls_no_further (chunk : string) (rest : list string)
  (o : string) (l : Z) (s : bool) (self1 : ResponseIterator)
  (entry : string) (entries : list string) :
  _process_chunk chunk (mkIterator (source rest) [] o l s) = (inr tt, self1) ->
  _ready_objs self1 = entry :: entries ->
  __next__ (mkIterator (source (chunk :: rest)) [] o l s)
  = (decode entry, set_ready_objs entries self1)
  /\ _response (set_ready_objs entries self1) = source rest.
Proof.
  intros Hp Hq. rewrite (next_pull chunk rest o l s self1 Hp).
  rewrite (next_ready self1 entry entries Hq). split; [reflexivity|].
  apply process_chunk_ok in Hp. subst self1.
  cbn [set_ready_objs _response]. now rewrite response_scan.
Qed.

(** X8.  An empty fragment pulled while the level is not 0 is passed over:
    the calls give the same results as on the source without it. *)
Theorem empty_fragment_is_passed_over (rest q : list string) (o : string)
  (l : Z) (s : bool) (n : nat) :
  l <> 0 ->
  fst (calls n (mkIterator (source (EmptyString :: rest)) q o l s))
  = fst (calls n (mkIterator (source rest) q o l s)).
Proof.
  intro Hl. revert q. induction n as [|n IH]; intro q; [reflexivity|].
  destruct q as [|obj q].
  - apply calls_same. apply next_pull.
    now rewrite empty_chunk_started.
  - rewrite !calls_ready. now rewrite IH.
Qed.

(** X9.  Once the queue is empty and the source has no fragment left, every
    call raises [StopIteration] and leaves the iterator as it is. *)
Theorem exhausted_for_good (k : nat) (self : ResponseIterator) :
  _ready_objs self = [] -> pending (_response self) = [] ->
  calls k self = (repeat (inl StopIteration) k, self).
Proof.
  intros Hq Hp. induction k as [|k IH]; [reflexivity|].
  cbn [calls]. rewrite (next_exhausted self Hq Hp), IH. reflexivity.
Qed.

(** X10.  After [cancel], as long as texts remain in the queue the calls only
    take them out: after [n] calls, for [n] up to the length of the queue,
    the queue has lost its [n] oldest entries, and the closed response, the
    fragments it still holds, the level, the string flag and the object
    under construction are those the cancelled iterator had. *)
Theorem cancelled_calls_only_drain (n : nat) (self : ResponseIterator) :
  (n <= List.length (_ready_objs self))%nat ->
  snd (calls n (snd (cancel self)))
  = set_ready_objs (skipn n (_ready_objs self)) (snd (cancel self)).
Proof.
  destruct self as [r q o l s]. unfold cancel, modify, set_response.
  cbn [snd _response _ready_objs _obj _level _in_string set_ready_objs].
  revert q. induction n as [|n IH]; intros q Hn; [reflexivity|].
  destruct q as [|obj q]; [simpl in Hn; lia|].
  cbn [calls].
  rewrite (next_ready (mkIterator (close r) (obj :: q) o l s) obj q eq_refl).
  unfold set_ready_objs at 1. cbn [_response _obj _level _in_string].
  specialize (IH q ltac:(simpl in Hn; lia)).
  destruct (calls n (mkIterator (close r) q o l s)) as [rs self'].
  exact IH.
Qed.

End Delivery.

Lemma calls_deliver_the_scan_witness :
  let chunks := ["[{}"%string; ",{"%string; "},{"%string] in
  forallb nonempty chunks = true
  /\ guarded (join chunks) (init (source chunks)) = true
  /\ fst (calls 4 (init (source chunks)))
     = firstn 4
         (map (decode (Msg := pystr))
            (_ready_objs (scan (join chunks) (init (source chunks))))
          ++ repeat (inl StopIteration) 4).
Proof.
  split; [reflexivity|]. split; [reflexivity|].
  apply (calls_deliver_the_scan (Msg := pystr)
           ["[{}"%string; ",{"%string; "},{"%string] 4);
    reflexivity.
Defined.

Lemma calls_ignore_the_cut_witness :
  let chunks := ["[{}"%string; ",{"%string; "}]"%string] in
  let chunks' := ["[{},{}]"%string] in
  forallb nonempty chunks = true
  /\ forallb nonempty chunks' = true
  /\ join chunks = join chunks'
  /\ guarded (join chunks) (init (source chunks)) = true
  /\ fst (calls (Msg := pystr) 3 (init (source chunks)))
     = fst (calls (Msg := pystr) 3 (init (source chunks'))).
Proof.
  split; [reflexivity|]. split; [reflexivity|]. split; [reflexivity|].
  split; [reflexivity|].
  apply (calls_ignore_the_cut (Msg := pystr)
           ["[{}"%string; ",{"%string; "}]"%string] ["[{},{}]"%string] 3);
    reflexivity.
Defined.

Lemma bad_fragment_is_consumed_witness :
  " "%char <> "["%char
  /\ __next__ (Msg := pystr)
       (mkIterator (source [" "%string; "[{}]"%string]) [] "" 0 false)
     = (inl (malformed " "), mkIterator (source ["[{}]"%string]) [] "" 0 false).
Proof.
  split; [discriminate|].
  apply (proj1 (bad_fragment_is_consumed (Msg := pystr) " "%char ""%string
                  ["[{}]"%string] ""%string false ltac:(discriminate))).
Defined.

Lemma next_pulls_no_further_witness :
  let self1 := scan "[{},{}," (mkIterator (source ["{}]"%string]) [] "" 0 false) in
  _process_chunk "[{},{}," (mkIterator (source ["{}]"%string]) [] "" 0 false)
  = (inr tt, self1)
  /\ _ready_objs self1 = ["{}"%string; "{}"%string]
  /\ __next__ (Msg := pystr)
       (mkIterator (source ["[{},{},"%string; "{}]"%string]) [] "" 0 false)
     = (decode "{}", set_ready_objs ["{}"%string] self1)
  /\ _response (set_ready_objs ["{}"%string] self1) = source ["{}]"%string].
Proof.
  split; [reflexivity|]. split; [reflexivity|].
  apply (next_pulls_no_further (Msg := pystr) "[{},{}," ["{}]"%string]
           ""%string 0 false _ "{}"%string ["{}"%string]);
    reflexivity.
Defined.

Lemma empty_fragment_is_passed_over_witness :
  1 <> 0
  /\ fst (calls (Msg := pystr) 2
            (mkIterator (source [""%string; "{}]"%string]) [] "" 1 false))
     = fst (calls (Msg := pystr) 2
              (mkIterator (source ["{}]"%string]) [] "" 1 false)).
Proof.
  split; [lia|].
  apply (empty_fragment_is_passed_over (Msg := pystr) ["{}]"%string] []
           ""%string 1 false 2).
  lia.
Defined.

Lemma exhausted_for_good_witness :
  let self := snd (feed ["[{"%string] (init (source []))) in
  _ready_objs self = []
  /\ pending (_response self) = []
  /\ calls (Msg := pystr) 3 self = (repeat (inl StopIteration) 3, self).
Proof.
  split; [reflexivity|]. split; [reflexivity|].
  apply (exhausted_for_good (Msg := pystr) 3
           (snd (feed ["[{"%string] (init (source [])))));
    reflexivity.
Defined.

Lemma cancelled_calls_only_drain_witness :
  let self := mkIterator (source ["{}]"%string])
                ["{}"%string; "{}"%string; "{}"%string] "{}" 1 false in
  (2 <= List.length (_ready_objs self))%nat
  /\ snd (calls (Msg := pystr) 2 (snd (cancel self)))
     = set_ready_objs ["{}"%string] (snd (cancel self)).
Proof.
  split; [simpl; lia|].
  apply (cancelled_calls_only_drain (Msg := pystr) 2
           (mkIterator (source ["{}]"%string])
              ["{}"%string; "{}"%string; "{}"%string] "{}" 1 false)).
  simpl; lia.
Defined.

(** ** What decoding accepts *)

Lemma scanstring_literal (a tail : string) :
  literal a = true ->
  py_scanstring (a ++ String dquote tail) = inr (code_points a, tail).
Proof.
  induction a as [|c a IH]; intro Hl.
  - reflexivity.
  - cbn [literal] in Hl.
    apply andb_true_iff in Hl. destruct Hl as [Hl Ha].
    apply andb_true_iff in Hl. destruct Hl as [Hl Hc].
    apply andb_true_iff in Hl. destruct Hl as [Hq Hb].
    apply negb_true_iff in Hq, Hb, Hc.
    cbn [append py_scanstring]. rewrite Hq, Hb, Hc, (IH Ha). reflexivity.
Qed.

Lemma scanstring_escaped (t tail : string) :
  no_control t = true ->
  py_scanstring (escape t ++ String dquote tail) = inr (code_points t, tail).
Proof.
  induction t as [|c t IH]; intro Hn.
  - reflexivity.
  - cbn [no_control] in Hn. apply andb_true_iff in Hn. destruct Hn as [Hc Hn].
    apply negb_true_iff in Hc. cbn [escape].
    destruct (Ascii.eqb_spec c dquote) as [->|Hq].
    + cbn [orb append py_scanstring]. rewrite (IH Hn). reflexivity.
    + destruct (Ascii.eqb_spec c "\") as [->|Hb].
      * cbn [orb append py_scanstring]. rewrite (IH Hn). reflexivity.
      * cbn [orb append py_scanstring].
        destruct (Ascii.eqb_spec c dquote); [contradiction|].
        destruct (Ascii.eqb_spec c "\"); [contradiction|].
        rewrite Hc, (IH Hn). reflexivity.
Qed.

(** X11.  A queued text in which every double quote and every backslash is
    escaped by a backslash, and which has no control character, is decoded
    back: [__next__] hands the message class the text without the escaping
    backslashes, and returns or raises what the class does. *)
Theorem escaped_text_is_decoded {Msg : Type} `{MessageCls Msg}
  (t : string) (rest : list string) (self : ResponseIterator) :
  no_control t = true ->
  _ready_objs self = escape t :: rest ->
  __next__ self = (from_json (code_points t), set_ready_objs rest self).
Proof.
  intros Hn Hq. rewrite (next_ready self _ rest Hq). f_equal.
  unfold decode, json_loads_quote.
  change (chr dquote) with (String dquote EmptyString).
  now rewrite (scanstring_escaped t EmptyString Hn).
Qed.

Lemma escaped_text_is_decoded_witness :
  let t := ("{" ++ quoted "a\b" ++ ":1}")%string in
  let self := mkIterator (source []) [escape t] "" 1 false in
  no_control t = true
  /\ _ready_objs self = [escape t]
  /\ __next__ (Msg := pystr) self
     = (from_json (code_points t), set_ready_objs [] self).
Proof.
  split; [reflexivity|]. split; [reflexivity|].
  apply (escaped_text_is_decoded (Msg := pystr)
           ("{" ++ quoted "a\b" ++ ":1}")%string []
           (mkIterator (source [])
              [escape ("{" ++ quoted "a\b" ++ ":1}")%string] "" 1 false));
    reflexivity.
Defined.

(** X12.  A queued text with a double quote that no backslash precedes
    anywhere before it is not decoded: whatever follows the quote, the call
    raises the [JSONDecodeError] of extra data, and the text is gone from the
    queue. *)
Theorem bare_quote_is_extra_data {Msg : Type} `{MessageCls Msg}
  (a b : string) (rest : list string) (self : ResponseIterator) :
  literal a = true ->
  _ready_objs self = (a ++ chr dquote ++ b)%string :: rest ->
  __next__ self
  = (inl (JSONDecodeError "Extra data"), set_ready_objs rest self).
Proof.
  intros Hl Hq. rewrite (next_ready self _ rest Hq). f_equal.
  unfold decode, json_loads_quote.
  rewrite append_assoc. cbn [chr append].
  rewrite (scanstring_literal a _ Hl).
  change (String dquote EmptyString) with (chr dquote).
  now rewrite not_all_whitespace.
Qed.

Lemma bare_quote_is_extra_data_witness :
  let a := "{"%string in
  let b := ("a" ++ chr dquote ++ ":1}")%string in
  let self := mkIterator (source []) [(a ++ chr dquote ++ b)%string] "" 1 false in
  literal a = true
  /\ _ready_objs self = [(a ++ chr dquote ++ b)%string]
  /\ __next__ (Msg := pystr) self
     = (inl (JSONDecodeError "Extra data"), set_ready_objs [] self).
Proof.
  split; [reflexivity|]. split; [reflexivity|].
  apply (bare_quote_is_extra_data (Msg := pystr) "{"%string
           ("a" ++ chr dquote ++ ":1}")%string []
           (mkIterator (source [])
              [("{" ++ chr dquote ++ "a" ++ chr dquote ++ ":1}")%string]
              "" 1 false));
    reflexivity.
Defined.
